(** * A shallow embedding of [src/umem.c], the user-space heap allocator.

    The region is byte addressed: a [size_t] or a pointer is eight bytes,
    little endian, as on the LP64 targets the code is written for.  The
    process-wide globals of [umem.c] form a record; every function runs in
    a small state monad whose result is either a normal return, a [Fault]
    (an access outside the mapped region, i.e. undefined behaviour such as a
    NULL dereference) or [OutOfFuel] (a loop that did not exit within the
    given number of iterations).  The [printf] calls only write to the
    console and are left out, except for the reads they force. *)

From Stdlib Require Import ZArith Bool List Lia.
Import ListNotations.
Open Scope Z_scope.

(** ** Machine words *)

Definition SIZE_T : Z := 8.          (* sizeof(size_t) = sizeof(void * ) *)
Definition W64 : Z := 2 ^ 64.
Definition SIZE_MAX : Z := W64 - 1.
Definition wrap (z : Z) : Z := z mod W64.
Definition NULL : Z := 0.
Definition PAGE_SIZE : Z := 4096.
Definition UMEM_ERROR : Z := -1.

(** ** Byte memory *)

Definition memory := Z -> Z.

Fixpoint load_le (m : memory) (a : Z) (n : nat) : Z :=
  match n with
  | O => 0
  | S n' => m a + 256 * load_le m (a + 1) n'
  end.

Fixpoint store_le (m : memory) (a v : Z) (n : nat) : memory :=
  match n with
  | O => m
  | S n' =>
      let m' := store_le m (a + 1) (v / 256) n' in
      fun x => if x =? a then v mod 256 else m' x
  end.

Definition load64 (m : memory) (a : Z) : Z := load_le m a 8.
Definition store64 (m : memory) (a v : Z) : memory := store_le m a (wrap v) 8.

(** ** Allocator globals *)

Inductive strategy := FIRST_FIT | BEST_FIT | WORST_FIT | NEXT_FIT.

(** The statics of [umem.c], plus the extent of the anonymous mapping the
    OS granted ([mapped_base], [mapped_len]): an access is defined only
    there.  [alloc_algo] is [None] while it holds no strategy value (the
    [default:] case of [umalloc]). *)
Record state := mkState {
  mem : memory;
  mapped_base : Z;
  mapped_len : Z;
  memory_region : Z;
  free_list : Z;
  previous_allocated_size : Z;
  alloc_algo : option strategy;
  region_size : Z;
  is_initialized : bool;
  last_allocated : Z
}.

(** The state before [umeminit]: every static is zero, nothing is mapped. *)
Definition state0 : state :=
  mkState (fun _ => 0) 0 0 NULL NULL 0 None 0 false NULL.

(** ** The monad *)

Inductive res (A : Type) :=
| Ok : A -> state -> res A
| Fault : res A
| OutOfFuel : res A.
Arguments Ok {A}.
Arguments Fault {A}.
Arguments OutOfFuel {A}.

Definition M (A : Type) := state -> res A.

Definition ret {A} (a : A) : M A := fun s => Ok a s.
Definition bind {A B} (m : M A) (k : A -> M B) : M B :=
  fun s => match m s with
           | Ok a s' => k a s'
           | Fault => Fault
           | OutOfFuel => OutOfFuel
           end.
Definition out_of_fuel {A} : M A := fun _ => OutOfFuel.

Notation "x <- m ;; k" := (bind m (fun x => k))
  (at level 61, m at next level, right associativity).
Notation "m ;;; k" := (bind m (fun _ => k))
  (at level 61, right associativity).

Definition gets {A} (f : state -> A) : M A := fun s => Ok (f s) s.
Definition modify (f : state -> state) : M unit := fun s => Ok tt (f s).

Definition set_mem (m : memory) (s : state) : state :=
  mkState m (mapped_base s) (mapped_len s) (memory_region s) (free_list s)
    (previous_allocated_size s) (alloc_algo s) (region_size s)
    (is_initialized s) (last_allocated s).
Definition set_free_list (v : Z) : M unit :=
  modify (fun s => mkState (mem s) (mapped_base s) (mapped_len s)
    (memory_region s) v (previous_allocated_size s) (alloc_algo s)
    (region_size s) (is_initialized s) (last_allocated s)).
Definition set_last_allocated (v : Z) : M unit :=
  modify (fun s => mkState (mem s) (mapped_base s) (mapped_len s)
    (memory_region s) (free_list s) (previous_allocated_size s)
    (alloc_algo s) (region_size s) (is_initialized s) v).

(** An eight-byte access is defined only inside the mapping. *)
Definition in_region (s : state) (a : Z) : bool :=
  (mapped_base s <=? a) && (a + SIZE_T <=? mapped_base s + mapped_len s).

Definition load (a : Z) : M Z :=
  fun s => if in_region s a then Ok (load64 (mem s) a) s else Fault.
Definition store (a v : Z) : M unit :=
  fun s => if in_region s a then Ok tt (set_mem (store64 (mem s) a v) s)
           else Fault.

(** A [void **] of the code: either [&free_list] or the address of a link
    field inside the region ([NULL] before the first candidate is found). *)
Inductive ploc := PNull | PHead | PAddr (a : Z).

Definition write_ploc (p : ploc) (v : Z) : M unit :=
  match p with
  | PNull => fun _ => Fault
  | PHead => set_free_list v
  | PAddr a => store a v
  end.

(** [(size + 7) & ~7] in [size_t] arithmetic. *)
Definition align8 (size : Z) : Z := Z.land (wrap (size + SIZE_T - 1)) (wrap (Z.lnot (SIZE_T - 1))).

(** ** [umeminit] *)

Definition MAP_FAILED : Z := wrap (-1).

(** [mmap_result] is the OS's answer to the [mmap] call: [MAP_FAILED] or
    the base of a fresh zero-filled mapping of the rounded length. *)
Definition umeminit (mmap_result : Z) (sizeOfRegion : Z)
    (allocationAlgo : strategy) : M Z :=
  init <- gets is_initialized;;
  if init then ret UMEM_ERROR else
  if sizeOfRegion <=? 0 then ret UMEM_ERROR else
  let sizeOfRegion :=
    Z.land (wrap (sizeOfRegion + PAGE_SIZE - 1)) (wrap (Z.lnot (PAGE_SIZE - 1))) in
  modify (fun s => mkState (mem s) (mapped_base s) (mapped_len s)
    mmap_result (free_list s) (previous_allocated_size s) (alloc_algo s)
    (region_size s) (is_initialized s) (last_allocated s));;;
  if mmap_result =? MAP_FAILED then ret UMEM_ERROR else
  modify (fun s => mkState (fun _ => 0) mmap_result sizeOfRegion
    (memory_region s) (free_list s) (previous_allocated_size s)
    (alloc_algo s) (region_size s) (is_initialized s) (last_allocated s));;;
  fl <- gets memory_region;;
  set_free_list fl;;;
  store fl (wrap (sizeOfRegion - SIZE_T));;;
  store (wrap (fl + SIZE_T)) NULL;;;
  modify (fun s => mkState (mem s) (mapped_base s) (mapped_len s)
    (memory_region s) (free_list s) sizeOfRegion (Some allocationAlgo)
    sizeOfRegion true (last_allocated s));;;
  ret 0.

(** ** [ufree] and [coalescing_memory] *)

(** [while (current_block != NULL && *(current_block + 8) != NULL)]. *)
Fixpoint coalescing_loop (fuel : nat) (current_block : Z) : M unit :=
  if current_block =? NULL then ret tt else
  lnk <- load (wrap (current_block + SIZE_T));;
  if lnk =? NULL then ret tt else
  match fuel with
  | O => out_of_fuel
  | S fuel' =>
      next_block <- load (wrap (current_block + SIZE_T));;
      csize <- load current_block;;
      if wrap (current_block + csize + SIZE_T) =? next_block then
        nsize <- load next_block;;
        csize' <- load current_block;;
        store current_block (wrap (csize' + (nsize + SIZE_T)));;;
        nn <- load (wrap (next_block + SIZE_T));;
        store (wrap (current_block + SIZE_T)) nn;;;
        coalescing_loop fuel' current_block
      else
        nn <- load (wrap (current_block + SIZE_T));;
        coalescing_loop fuel' nn
  end.

Definition coalescing_memory (fuel : nat) : M unit :=
  fl <- gets free_list;;
  coalescing_loop fuel fl.

(** [while (current_block != NULL && current_block < block_to_free)]. *)
Fixpoint ufree_find (fuel : nat) (block_to_free prev_block current_block : Z)
    : M (Z * Z) :=
  if (current_block =? NULL) || negb (current_block <? block_to_free)
  then ret (prev_block, current_block) else
  match fuel with
  | O => out_of_fuel
  | S fuel' =>
      nx <- load (wrap (current_block + SIZE_T));;
      ufree_find fuel' block_to_free current_block nx
  end.

Definition ufree (fuel : nat) (ptr : Z) : M Z :=
  if ptr =? NULL then ret UMEM_ERROR else
  let block_to_free := wrap (ptr - SIZE_T) in
  block_size <- load block_to_free;;
  fl <- gets free_list;;
  pc <- ufree_find fuel block_to_free NULL fl;;
  let (prev_block, current_block) := pc in
  (if prev_block =? NULL then set_free_list block_to_free
   else store (wrap (prev_block + SIZE_T)) block_to_free);;;
  store (wrap (block_to_free + SIZE_T)) current_block;;;
  coalescing_memory fuel;;;
  ret 0.

(** ** [umemdump]: the rows (block number, size, address) it prints. *)

Fixpoint umemdump_loop (fuel : nat) (block_number current_block : Z)
    : M (list (Z * Z * Z)) :=
  if current_block =? NULL then ret [] else
  match fuel with
  | O => out_of_fuel
  | S fuel' =>
      sz <- load current_block;;
      nx <- load (wrap (current_block + SIZE_T));;
      rest <- umemdump_loop fuel' (block_number + 1) nx;;
      ret ((block_number, sz, current_block) :: rest)
  end.

Definition umemdump (fuel : nat) : M (list (Z * Z * Z)) :=
  fl <- gets free_list;;
  umemdump_loop fuel 1 fl.

(** ** First fit *)

(** One pass of the [while (current_block != NULL)] loop of
    [first_fit_algorithm].  [prev_block] is a [void *], so [prev_block + 1]
    is one byte past it (GNU [void *] arithmetic). *)
Fixpoint first_fit_loop (fuel : nat) (size prev_block current_block : Z) : M Z :=
  if current_block =? NULL then ret NULL else
  block_size <- load current_block;;
  if size <=? block_size then
    (if wrap (size + SIZE_T) <? block_size then
       let new_block := wrap (current_block + SIZE_T + size) in
       store new_block (wrap (block_size - size - SIZE_T));;;
       lnk <- load (wrap (current_block + SIZE_T));;
       store (wrap (new_block + SIZE_T)) lnk;;;
       store current_block size;;;
       (if prev_block =? NULL then ret tt
        else store (wrap (prev_block + 1)) new_block)
     else ret tt);;;
    (if prev_block =? NULL then
       lnk <- load (wrap (current_block + SIZE_T));;
       set_free_list lnk
     else
       lnk <- load (wrap (current_block + SIZE_T));;
       store (wrap (prev_block + 1)) lnk);;;
    ret (wrap (current_block + SIZE_T))
  else
    match fuel with
    | O => out_of_fuel
    | S fuel' =>
        nx <- load (wrap (current_block + SIZE_T));;
        first_fit_loop fuel' size current_block nx
    end.

Definition first_fit_algorithm (fuel : nat) (size : Z) : M Z :=
  let size := align8 size in
  fl <- gets free_list;;
  first_fit_loop fuel size NULL fl.

(** ** Best fit *)

(** The scan: returns [(best_block, best_prev_pointer, smallest_diff)]. *)
Fixpoint best_fit_scan (fuel : nat) (size best_block : Z) (best_prev_pointer : ploc)
    (smallest_diff : Z) (prev_pointer : ploc) (current_block : Z)
    : M (Z * ploc * Z) :=
  if current_block =? NULL then ret (best_block, best_prev_pointer, smallest_diff) else
  match fuel with
  | O => out_of_fuel
  | S fuel' =>
      current_size <- load current_block;;
      let '(b, bp, sd) :=
        if size <=? current_size then
          let diff := current_size - size in
          if diff <? smallest_diff then (current_block, prev_pointer, diff)
          else (best_block, best_prev_pointer, smallest_diff)
        else (best_block, best_prev_pointer, smallest_diff) in
      let pp := wrap (current_block + SIZE_T) in
      nx <- load pp;;
      best_fit_scan fuel' size b bp sd (PAddr pp) nx
  end.

Definition best_fit_algorithm (fuel : nat) (size : Z) : M Z :=
  let size := align8 size in
  fl <- gets free_list;;
  r <- best_fit_scan fuel size NULL PNull SIZE_MAX PHead fl;;
  let '(best_block, best_prev_pointer, _) := r in
  if best_block =? NULL then ret NULL else
  bsize <- load best_block;;
  let remaining_size := wrap (bsize - size) in
  if SIZE_T + SIZE_T <? remaining_size then
    let new_block := wrap (best_block + SIZE_T + size) in
    store new_block (wrap (remaining_size - SIZE_T));;;
    lnk <- load (wrap (best_block + SIZE_T));;
    store (wrap (new_block + SIZE_T)) lnk;;;
    store best_block size;;;
    write_ploc best_prev_pointer new_block;;;
    ret (wrap (best_block + SIZE_T))
  else
    lnk <- load (wrap (best_block + SIZE_T));;
    write_ploc best_prev_pointer lnk;;;
    ret (wrap (best_block + SIZE_T)).

(** ** Worst fit (the request is not aligned here) *)

Fixpoint worst_fit_scan (fuel : nat) (size worst_block : Z) (worst_prev_pointer : ploc)
    (largest_diff : Z) (prev_pointer : ploc) (current_block : Z)
    : M (Z * ploc * Z) :=
  if current_block =? NULL then ret (worst_block, worst_prev_pointer, largest_diff) else
  match fuel with
  | O => out_of_fuel
  | S fuel' =>
      current_size <- load current_block;;
      let '(b, bp, ld) :=
        if size <=? current_size then
          let diff := current_size - size in
          if largest_diff <? diff then (current_block, prev_pointer, diff)
          else (worst_block, worst_prev_pointer, largest_diff)
        else (worst_block, worst_prev_pointer, largest_diff) in
      let pp := wrap (current_block + SIZE_T) in
      nx <- load pp;;
      worst_fit_scan fuel' size b bp ld (PAddr pp) nx
  end.

Definition worst_fit_algorithm (fuel : nat) (size : Z) : M Z :=
  fl <- gets free_list;;
  r <- worst_fit_scan fuel size NULL PNull 0 PHead fl;;
  let '(worst_block, worst_prev_pointer, _) := r in
  if worst_block =? NULL then ret NULL else
  wsize <- load worst_block;;
  let remaining_size := wrap (wsize - size - SIZE_T) in
  (if SIZE_T <? remaining_size then
     let new_block := wrap (worst_block + SIZE_T + size) in
     store new_block remaining_size;;;
     lnk <- load (wrap (worst_block + SIZE_T));;
     store (wrap (new_block + SIZE_T)) lnk;;;
     write_ploc worst_prev_pointer new_block
   else
     lnk <- load (wrap (worst_block + SIZE_T));;
     write_ploc worst_prev_pointer lnk);;;
  store worst_block size;;;
  ret (wrap (worst_block + SIZE_T)).

(** ** Next fit *)

(** The [do { ... } while (last_allocated != start)] loop. *)
Fixpoint next_fit_loop (fuel : nat) (size start : Z) : M Z :=
  la <- gets last_allocated;;
  current_size <- load la;;
  if size <=? current_size then
    let remaining_size := wrap (current_size - size - SIZE_T) in
    (if SIZE_T * 2 <? remaining_size then
       let new_block := wrap (la + size + SIZE_T) in
       store new_block remaining_size;;;
       lnk <- load (wrap (la + SIZE_T));;
       store (wrap (new_block + SIZE_T)) lnk;;;
       store la size;;;
       set_last_allocated new_block
     else ret tt (* [size = current_size]: a dead store to the local *));;;
    la' <- gets last_allocated;;
    ret (wrap (la' + SIZE_T))
  else
    nx <- load (wrap (la + SIZE_T));;
    set_last_allocated nx;;;
    (if nx =? NULL then fl <- gets free_list;; set_last_allocated fl
     else ret tt);;;
    la' <- gets last_allocated;;
    if la' =? start then ret NULL else
    match fuel with
    | O => out_of_fuel
    | S fuel' => next_fit_loop fuel' size start
    end.

Definition next_fit_algorithm (fuel : nat) (size : Z) : M Z :=
  let size := align8 size in
  s <- gets (fun s => s);;
  let la := last_allocated s in
  (if (la =? NULL) || (la <? memory_region s)
      || (memory_region s + region_size s <=? la)
   then set_last_allocated (free_list s) else ret tt);;;
  start <- gets last_allocated;;
  next_fit_loop fuel size start.

(** ** [umalloc] *)

Definition umalloc (fuel : nat) (size : Z) : M Z :=
  algo <- gets alloc_algo;;
  match algo with
  | Some FIRST_FIT => first_fit_algorithm fuel size
  | Some BEST_FIT => best_fit_algorithm fuel size
  | Some WORST_FIT => worst_fit_algorithm fuel size
  | Some NEXT_FIT => next_fit_algorithm fuel size
  | None => ret NULL
  end.

(** * Scenarios *)

(** A page-aligned address the OS may hand back for the region. *)
Definition region_base : Z := 1048576.

(** The result of running [m] from the state [s], when it returns. *)
Definition observe {A} (m : M A) (s : state) : option A :=
  match m s with Ok a _ => Some a | _ => None end.

(** The end of the block whose header is at [a]: header address plus the
    header size plus its recorded size. *)
Definition block_end (s : state) (a : Z) : Z := a + SIZE_T + load64 (mem s) a.

(** [blocks] (header addresses in ascending order, free and allocated
    together) tile the region: the first starts at the region base, each
    ends where the next starts, the last ends at the region end. *)
Fixpoint tiles_from (s : state) (a : Z) (blocks : list Z) (stop : Z) : bool :=
  match blocks with
  | [] => a =? stop
  | b :: bs => (a =? b) && tiles_from s (block_end s b) bs stop
  end.

Definition blocks_tile (s : state) (blocks : list Z) : bool :=
  tiles_from s (memory_region s) blocks (memory_region s + region_size s).

(** The addresses of the Free Registry, as [umemdump] lists them. *)
Definition registry (fuel : nat) : M (list Z) :=
  d <- umemdump fuel;;
  ret (map (fun '(_, _, a) => a) d).

(** Two entries of the registry are physically adjacent. *)
Definition has_adjacent_pair (s : state) (entries : list Z) : bool :=
  existsb (fun a => existsb (fun b => block_end s a =? b) entries) entries.

(** The state after [umeminit(4096, NEXT_FIT)] and [malloc(4080)]. *)
Definition next_fit_whole_block_state : state :=
  match (umeminit region_base 4096 NEXT_FIT;;; umalloc 0 4080) state0 with
  | Ok _ s => s
  | _ => state0
  end.

(** The state after [umeminit(4096, NEXT_FIT)], [malloc(1)] and the
    [ufree] of its result: the cursor is left on a coalesced-away block. *)
Definition next_fit_stale_cursor_state : state :=
  match (umeminit region_base 4096 NEXT_FIT;;; p <- umalloc 10 1;; ufree 10 p) state0 with
  | Ok _ s => s
  | _ => state0
  end.

(** The mapping lies strictly between NULL and the top of the address
    space. *)
Definition region_fits (s : state) : Prop :=
  0 < mapped_base s /\ mapped_base s + mapped_len s < W64.

(** A well-formed Free Registry from [a]: every entry lies in the mapping,
    has room for its link field, ends inside the mapping, and ends no later
    than the entry its link points to (so the entries ascend and do not
    overlap); the list ends in NULL. *)
Inductive free_chain (s : state) : Z -> Prop :=
| free_chain_nil : free_chain s NULL
| free_chain_cons a :
    a <> NULL ->
    mapped_base s <= a ->
    SIZE_T <= load64 (mem s) a ->
    a + SIZE_T + load64 (mem s) a <= mapped_base s + mapped_len s ->
    (load64 (mem s) (a + SIZE_T) = NULL \/
     a + SIZE_T + load64 (mem s) a <= load64 (mem s) (a + SIZE_T)) ->
    free_chain s (load64 (mem s) (a + SIZE_T)) ->
    free_chain s a.

(** The state right after [umeminit(4096, FIRST_FIT)]. *)
Definition first_fit_fresh_state : state :=
  match umeminit region_base 4096 FIRST_FIT state0 with
  | Ok _ s => s
  | _ => state0
  end.

(** Where a [void **] of the code may point relative to a block [b]. *)
Definition ploc_below (pp : ploc) (b : Z) : Prop :=
  match pp with PAddr q => q + SIZE_T <= b | _ => True end.

Definition good_pick (s : state) (size b : Z) (bp : ploc) : Prop :=
  b <> NULL /\ mapped_base s <= b /\ size <= load64 (mem s) b /\
  b + SIZE_T + load64 (mem s) b <= mapped_base s + mapped_len s /\
  ploc_below bp b.

(** * The rest of umem.c and the registry views used below *)

(** ** [print_free_list]: the rows (address, size, next) it prints. *)



(** The Free Registry from [a] as the list of its entries' addresses. *)
Inductive chain (s : state) : Z -> list Z -> Prop :=
| chain_nil : chain s NULL []
| chain_cons a l :
    a <> NULL -> chain s (load64 (mem s) (a + SIZE_T)) l -> chain s a (a :: l).





(** [m1] and [m2] hold the same words at every address from [a] on. *)
Definition agree_from (m1 m2 : memory) (a : Z) : Prop :=
  forall x, a <= x -> load64 m1 x = load64 m2 x.


(** The configuration of the allocator, which [umeminit] sets once: the
    mapping, [memory_region], [previous_allocated_size], [alloc_algo],
    [region_size] and [is_initialized]. *)
Definition same_config (s s' : state) : Prop :=
  mapped_base s' = mapped_base s /\ mapped_len s' = mapped_len s /\
  memory_region s' = memory_region s /\
  previous_allocated_size s' = previous_allocated_size s /\
  alloc_algo s' = alloc_algo s /\ region_size s' = region_size s /\
  is_initialized s' = is_initialized s.

(** A computation that, when it succeeds, leaves the configuration as it
    found it. *)
Definition keeps {A} (m : M A) : Prop :=
  forall s a s', m s = Ok a s' -> same_config s s'.

(** One registry entry as [free_chain] requires it, link included. *)
Definition entry_ok (s : state) (x : Z) : Prop :=
  x <> NULL /\ mapped_base s <= x /\ SIZE_T <= load64 (mem s) x /\
  x + SIZE_T + load64 (mem s) x <= mapped_base s + mapped_len s /\
  (load64 (mem s) (x + SIZE_T) = NULL \/
   x + SIZE_T + load64 (mem s) x <= load64 (mem s) (x + SIZE_T)).

(** A computation that, when it succeeds, leaves [free_list] as it found
    it. *)
Definition keeps_head {A} (m : M A) : Prop :=
  forall s a s', m s = Ok a s' -> free_list s' = free_list s.

(** The search loop of [allocate_memory_block]: from [prev_block], the
    first entry whose link is [block], or NULL at the end of the list. *)
Fixpoint allocate_find_prev (fuel : nat) (block prev_block : Z) : M Z :=
  if prev_block =? NULL then ret NULL else
  lnk <- load (wrap (prev_block + SIZE_T));;
  if lnk =? block then ret prev_block else
  match fuel with
  | O => out_of_fuel
  | S fuel' =>
      nx <- load (wrap (prev_block + SIZE_T));;
      allocate_find_prev fuel' block nx
  end.

(** [allocate_memory_block] (never called by the allocator itself). *)
Definition allocate_memory_block (fuel : nat) (block requested_size : Z) : M Z :=
  block_size <- load block;;
  if wrap (requested_size + SIZE_T + SIZE_T) <? block_size then
    let remaining_size := wrap (block_size - requested_size - SIZE_T) in
    let new_block := wrap (block + SIZE_T + requested_size) in
    store new_block remaining_size;;;
    lnk <- load (wrap (block + SIZE_T));;
    store (wrap (new_block + SIZE_T)) lnk;;;
    store block requested_size;;;
    ret (wrap (block + SIZE_T))
  else
    next_block <- load (wrap (block + SIZE_T));;
    fl <- gets free_list;;
    (if block =? fl then set_free_list next_block
     else
       prev_block <- allocate_find_prev fuel block fl;;
       if prev_block =? NULL then ret tt
       else store (wrap (prev_block + SIZE_T)) next_block);;;
    ret (wrap (block + SIZE_T)).

(** The state right after [umeminit(4096, algo)]. *)
Definition fresh_state (algo : strategy) : state :=
  match umeminit region_base 4096 algo state0 with
  | Ok _ s => s
  | _ => state0
  end.

(** The state after [umalloc(n)] from [s] (or [s] if it does not succeed). *)
Definition after_umalloc (fuel : nat) (n : Z) (s : state) : state :=
  match umalloc fuel n s with Ok _ s' => s' | _ => s end.

(** * Memory lemmas *)

Lemma mod_mul_split (v b c : Z) :
  0 < b -> 0 < c -> v mod (b * c) = v mod b + b * ((v / b) mod c).
Proof.
  intros Hb Hc.
  pose proof (Z.div_mod v b ltac:(lia)) as E1.
  pose proof (Z.div_mod (v / b) c ltac:(lia)) as E2.
  pose proof (Z.mod_pos_bound v b Hb) as B1.
  pose proof (Z.mod_pos_bound (v / b) c Hc) as B2.
  symmetry. apply Z.mod_unique with (q := v / b / c); [|nia].
  left. split; nia.
Qed.

Lemma load_le_ext (m1 m2 : memory) (n : nat) (a : Z) :
  (forall x, a <= x < a + Z.of_nat n -> m1 x = m2 x) ->
  load_le m1 a n = load_le m2 a n.
Proof.
  revert a; induction n as [|n IH]; intros a H; simpl; [reflexivity|].
  rewrite H by lia. rewrite (IH (a + 1)) by (intros; apply H; lia).
  reflexivity.
Qed.

Lemma store_le_other (m : memory) (n : nat) (a v x : Z) :
  x < a \/ a + Z.of_nat n <= x -> store_le m a v n x = m x.
Proof.
  revert a v; induction n as [|n IH]; intros a v H; simpl; [reflexivity|].
  destruct (Z.eqb_spec x a); [lia|]. apply IH. lia.
Qed.

Lemma load_store_le_same (m : memory) (n : nat) (a v : Z) :
  load_le (store_le m a v n) a n = v mod 256 ^ Z.of_nat n.
Proof.
  revert a v; induction n as [|n IH]; intros a v.
  - simpl. now rewrite Z.mod_1_r.
  - cbn [load_le store_le]. rewrite Z.eqb_refl.
    rewrite (load_le_ext _ (store_le m (a + 1) (v / 256) n)).
    + rewrite IH. rewrite Nat2Z.inj_succ, Z.pow_succ_r by lia.
      rewrite mod_mul_split by lia. reflexivity.
    + intros x Hx. destruct (Z.eqb_spec x a); [lia|reflexivity].
Qed.

Lemma load_store64_same (m : memory) (a v : Z) :
  load64 (store64 m a v) a = wrap v.
Proof.
  unfold load64, store64. rewrite load_store_le_same.
  unfold wrap, W64. rewrite Z.mod_mod by lia. reflexivity.
Qed.

Lemma load_store64_other (m : memory) (a b v : Z) :
  b + SIZE_T <= a \/ a + SIZE_T <= b ->
  load64 (store64 m a v) b = load64 m b.
Proof.
  intros H. unfold load64, store64. apply load_le_ext.
  intros x Hx. apply store_le_other. unfold SIZE_T in H. simpl in Hx. lia.
Qed.

(** * The claims *)

(** ** Concrete runs of the code *)

(** C1 (partition invariant).  Under worst fit, [malloc(4080)] on a fresh
    4096-byte region takes the whole 4088-byte block without splitting it,
    yet [worst_fit_algorithm] writes [size] into the header after both
    branches.  The registry is then empty, so the returned block is the only
    block, and its header says 4080: it ends 8 bytes before the region end,
    so the blocks no longer tile the region. *)
Theorem worst_fit_whole_block_breaks_tiling :
  observe (umeminit region_base 4096 WORST_FIT;;;
           p <- umalloc 10 4080;;
           reg <- registry 10;;
           s <- gets (fun s => s);;
           ret (p, reg, load64 (mem s) (p - SIZE_T), blocks_tile s [p - SIZE_T]))
    state0
  = Some (region_base + SIZE_T, [], 4080, false).
Proof. vm_compute. reflexivity. Qed.

(** C2 (allocate either returns a block now out of the registry, or fails
    exactly when no block is large enough).  Under worst fit, a request equal
    to the only block's size (4088) fails: [diff > largest_diff] with
    [largest_diff = 0] never selects an exact fit.  Under next fit,
    [malloc(4080)] returns the payload of the block at the region base, and
    that block is still the head of the registry. *)
Theorem allocate_result_vs_registry :
  observe (umeminit region_base 4096 WORST_FIT;;;
           d <- umemdump 10;;
           p <- umalloc 10 4088;;
           ret (d, p)) state0
  = Some ([(1, 4088, region_base)], NULL)
  /\
  observe (umeminit region_base 4096 NEXT_FIT;;;
           p <- umalloc 10 4080;;
           reg <- registry 10;;
           ret (p, reg)) state0
  = Some (region_base + SIZE_T, [region_base]).
Proof. split; vm_compute; reflexivity. Qed.

(** C3 (the splitter links the residual block in place of the original).
    Under first fit, [malloc(100)] on a fresh region splits the 4088-byte
    block: the prefix gets header 104, the residual at offset 112 gets size
    3976, but since the block was the head, [free_list] is then set to the
    original block's link (NULL) and the residual is in no registry entry. *)
Theorem first_fit_split_loses_residual :
  observe (umeminit region_base 4096 FIRST_FIT;;;
           p <- umalloc 10 100;;
           s <- gets (fun s => s);;
           reg <- registry 10;;
           ret (p, load64 (mem s) region_base,
                load64 (mem s) (region_base + 112), reg)) state0
  = Some (region_base + SIZE_T, 104, 3976, []).
Proof. vm_compute. reflexivity. Qed.

(** C4 (best-fit optimality, failure only without a large enough block).
    [malloc(SIZE_MAX)] under best fit: [(size + 7) & ~7] wraps to 0, so the
    4088-byte block qualifies and its payload is returned, though no block
    has size [>= SIZE_MAX]. *)
Theorem best_fit_huge_request_succeeds :
  observe (umeminit region_base 4096 BEST_FIT;;;
           d <- umemdump 10;;
           p <- umalloc 10 SIZE_MAX;;
           ret (d, p)) state0
  = Some ([(1, 4088, region_base)], region_base + SIZE_T).
Proof. vm_compute. reflexivity. Qed.

(** C5 (no two registry entries adjacent after a release).  Under next fit:
    [malloc(1)], free it, [malloc(100)], free it, [malloc(4000)], free it.
    After the last [ufree] returns, the registry holds blocks at offsets 0
    (size 4000), 128 and 4008, and [0 + 8 + 4000 = 4008]: the first and
    the last entry are adjacent, with the overlapping entry 128 between them
    in the list. *)
Theorem next_fit_release_leaves_adjacent :
  observe (umeminit region_base 4096 NEXT_FIT;;;
           p1 <- umalloc 10 1;; ufree 10 p1;;;
           p2 <- umalloc 10 100;; ufree 10 p2;;;
           p3 <- umalloc 10 4000;; r <- ufree 10 p3;;
           d <- umemdump 10;;
           reg <- registry 10;;
           s <- gets (fun s => s);;
           ret (r, d, has_adjacent_pair s reg)) state0
  = Some (0, [(1, 4000, region_base); (2, 3960, region_base + 128);
              (3, 80, region_base + 4008)], true).
Proof. vm_compute. reflexivity. Qed.

(** C6, counterexample: under first fit, [umalloc(4080)] on a fresh region
    takes the whole 4088-byte block without splitting, and the header keeps
    4088, not the aligned request 4080. *)
Theorem first_fit_whole_block_keeps_header :
  observe (umeminit region_base 4096 FIRST_FIT;;;
           p <- umalloc 10 4080;;
           s <- gets (fun s => s);;
           ret (p, align8 4080, load64 (mem s) (p - SIZE_T))) state0
  = Some (region_base + SIZE_T, 4080, 4088).
Proof. vm_compute. reflexivity. Qed.

(** C7, counterexample: under next fit, after [malloc(1)] and its [ufree],
    the cursor is at offset 16, a block that was coalesced into the head
    (the registry is just the block at offset 0).  The next [malloc(100)]
    does not reset it: it splits the stale block at offset 16 (its header
    becomes 104) and returns offset 136, while the head block keeps 4088. *)
Theorem next_fit_stale_cursor_kept :
  observe (umeminit region_base 4096 NEXT_FIT;;;
           p1 <- umalloc 10 1;; ufree 10 p1;;;
           c <- gets last_allocated;;
           reg <- registry 10;;
           p2 <- umalloc 10 100;;
           s <- gets (fun s => s);;
           ret (c, reg, p2, load64 (mem s) c, load64 (mem s) region_base)) state0
  = Some (region_base + 16, [region_base], region_base + 136, 104, 4088).
Proof. vm_compute. reflexivity. Qed.

(** C8 (round trip reuses the block).  Under worst fit: [malloc(4080)]
    succeeds, [ufree] returns 0, and the same [malloc(4080)] then fails: the
    freed block's header now says 4080, an exact fit, which worst fit never
    selects. *)
Theorem worst_fit_round_trip_fails :
  observe (umeminit region_base 4096 WORST_FIT;;;
           p1 <- umalloc 10 4080;;
           r <- ufree 10 p1;;
           p2 <- umalloc 10 4080;;
           ret (p1, r, p2)) state0
  = Some (region_base + SIZE_T, 0, NULL).
Proof. vm_compute. reflexivity. Qed.

(** ** Monad lemmas *)

Lemma bind_ok {A B} (m : M A) (k : A -> M B) s a s' :
  m s = Ok a s' -> bind m k s = k a s'.
Proof. unfold bind. intros ->. reflexivity. Qed.

Lemma bind_ok_inv {A B} (m : M A) (k : A -> M B) s r s' :
  bind m k s = Ok r s' -> exists a s1, m s = Ok a s1 /\ k a s1 = Ok r s'.
Proof.
  unfold bind. destruct (m s) as [a s1| |]; intros H; try discriminate.
  eauto.
Qed.

Ltac peel H :=
  match type of H with
  | bind _ _ _ = Ok _ _ =>
      let a := fresh "a" in let s1 := fresh "s" in let E := fresh "E" in
      apply bind_ok_inv in H; destruct H as (a & s1 & E & H)
  end.

Lemma wrap_id z : 0 <= z < W64 -> wrap z = z.
Proof. intros H. unfold wrap. apply Z.mod_small. exact H. Qed.

(** ** Release of a block that is still the registry head *)

Lemma ufree_find_stop fuel b prev cur s :
  (cur =? NULL) || negb (cur <? b) = true ->
  ufree_find fuel b prev cur s = Ok (prev, cur) s.
Proof. intros H. destruct fuel; simpl; rewrite H; reflexivity. Qed.

(** A registry entry whose link points to itself: the coalescing loop
    neither merges (the block is not adjacent to itself) nor moves. *)
Lemma coalescing_loop_self_link fuel s c :
  c <> NULL ->
  in_region s c = true -> in_region s (wrap (c + SIZE_T)) = true ->
  load64 (mem s) (wrap (c + SIZE_T)) = c ->
  wrap (c + load64 (mem s) c + SIZE_T) <> c ->
  coalescing_loop fuel c s = OutOfFuel.
Proof.
  intros Hc Hin Hin8 Hlnk Hadj.
  assert (Hc' : (c =? NULL) = false) by (apply Z.eqb_neq; exact Hc).
  assert (Hadj' : (wrap (c + load64 (mem s) c + SIZE_T) =? c) = false)
    by (apply Z.eqb_neq; exact Hadj).
  induction fuel as [|fuel IH]; cbn [coalescing_loop];
    unfold bind, load, ret, out_of_fuel; rewrite Hc', Hin8, Hlnk, Hc';
    [reflexivity|].
  rewrite Hin8, Hlnk, Hin, Hadj', Hin8, Hlnk. exact IH.
Qed.

Lemma ufree_registry_head_hangs fuel s b :
  b = free_list s -> 0 < b -> b + 2 * SIZE_T < W64 ->
  in_region s b = true -> in_region s (b + SIZE_T) = true ->
  0 <= load64 (mem s) b < W64 - SIZE_T ->
  ufree fuel (b + SIZE_T) s = OutOfFuel.
Proof.
  intros Hfl Hb Hw Hin Hin8 Hh.
  unfold ufree. unfold SIZE_T, W64 in *.
  replace (b + 8 =? NULL) with false by (symmetry; apply Z.eqb_neq; unfold NULL; lia).
  replace (wrap (b + 8 - 8)) with b by (rewrite wrap_id; unfold W64; lia).
  replace (wrap (b + 8)) with (b + 8) by (rewrite wrap_id; unfold W64; lia).
  unfold bind at 1, load at 1. rewrite Hin.
  unfold bind at 1, gets at 1. rewrite <- Hfl.
  unfold bind at 1. rewrite ufree_find_stop
    by (rewrite Z.ltb_irrefl; apply orb_true_r).
  replace (NULL =? NULL) with true by reflexivity.
  unfold bind at 1, set_free_list, modify.
  unfold bind at 1, store.
  unfold in_region at 1. cbn [mapped_base mapped_len mem].
  unfold in_region in Hin8. rewrite Hin8.
  unfold coalescing_memory, bind, gets. cbn [free_list set_mem].
  unfold SIZE_T.
  rewrite coalescing_loop_self_link; [reflexivity|..];
    unfold set_mem, in_region in *; cbn [mem mapped_base mapped_len] in *;
    unfold SIZE_T, W64 in *.
  - unfold NULL. lia.
  - exact Hin.
  - rewrite wrap_id by (unfold W64; lia). exact Hin8.
  - rewrite wrap_id by (unfold W64; lia).
    rewrite load_store64_same. apply wrap_id. unfold W64. lia.
  - rewrite load_store64_other by (unfold SIZE_T; lia).
    unfold wrap, W64. set (h := load64 (mem s) b) in *.
    destruct (Z.lt_ge_cases (b + h + 8) (2 ^ 64)).
    + rewrite Z.mod_small by lia. lia.
    + replace (b + h + 8) with ((b + h + 8 - 2 ^ 64) + 1 * 2 ^ 64) by lia.
      rewrite Z.mod_add by lia. rewrite Z.mod_small by lia. lia.
Qed.

(** C9 (every operation returns).  Under next fit, [malloc(4080)] on a
    fresh region hands out the whole head block without unlinking it;
    releasing it links the head to itself ([prev_block] is NULL and
    [current_block] is the block), and [coalescing_memory] then never leaves
    its loop: for every amount of fuel the call runs out of it. *)
Theorem next_fit_release_never_returns : forall fuel,
  (p <- (umeminit region_base 4096 NEXT_FIT;;; umalloc 0 4080);;
   ufree fuel p) state0 = OutOfFuel.
Proof.
  intros fuel.
  rewrite (bind_ok _ _ _ (region_base + SIZE_T) next_fit_whole_block_state)
    by (vm_compute; reflexivity).
  apply ufree_registry_head_hangs; vm_compute;
    first [reflexivity | split; [discriminate | reflexivity]].
Qed.

(** C10 (release fails exactly on NULL, and is then a no-op).  [ufree]
    returns [UMEM_ERROR] on NULL without touching any global (the whole
    state, region bytes, [free_list] and [last_allocated] included, is
    returned unchanged), and whenever it returns on a non-NULL pointer it
    returns 0. *)
Theorem ufree_error_iff_null : forall fuel ptr s,
  (ptr = NULL -> ufree fuel ptr s = Ok UMEM_ERROR s) /\
  (forall r s', ufree fuel ptr s = Ok r s' -> (r = UMEM_ERROR <-> ptr = NULL)).
Proof.
  intros fuel ptr s. split.
  - intros ->. reflexivity.
  - intros r s' H. unfold ufree in H.
    destruct (Z.eqb_spec ptr NULL) as [Hn|Hn].
    + cbv [ret] in H. injection H as <- _. tauto.
    + peel H. peel H. peel H. destruct a1 as [prev cur].
      peel H. peel H. peel H. cbv [ret] in H. injection H as <- _.
      unfold UMEM_ERROR. split; intros; [discriminate|contradiction].
Qed.

Lemma ufree_error_iff_null_witness :
  ufree 10 NULL state0 = Ok UMEM_ERROR state0.
Proof. apply (proj1 (ufree_error_iff_null 10 NULL state0)). reflexivity. Defined.

(** C7, amended: at the start of a next-fit call the cursor is replaced by
    the registry head exactly when it is NULL or lies outside
    [[memory_region, memory_region + region_size)]; a cursor inside the
    region is kept as the start of the scan, whether or not a registry entry
    is there. *)
Theorem next_fit_scan_start : forall fuel size s,
  let c := last_allocated s in
  (c <> NULL /\ memory_region s <= c < memory_region s + region_size s ->
   next_fit_algorithm fuel size s = next_fit_loop fuel (align8 size) c s) /\
  (c = NULL \/ c < memory_region s \/ memory_region s + region_size s <= c ->
   next_fit_algorithm fuel size s =
   (set_last_allocated (free_list s);;;
    next_fit_loop fuel (align8 size) (free_list s)) s).
Proof.
  intros fuel size s c. unfold next_fit_algorithm, bind, gets, ret. fold c.
  split.
  - intros (Hn & Hlo & Hhi).
    replace ((c =? NULL) || (c <? memory_region s)
             || (memory_region s + region_size s <=? c)) with false.
    + reflexivity.
    + symmetry. apply Bool.orb_false_intro; [apply Bool.orb_false_intro|];
        [apply Z.eqb_neq | apply Z.ltb_ge | apply Z.leb_gt]; lia.
  - intros H.
    replace ((c =? NULL) || (c <? memory_region s)
             || (memory_region s + region_size s <=? c)) with true.
    + reflexivity.
    + symmetry. destruct H as [H|[H|H]].
      * rewrite H. reflexivity.
      * apply Z.ltb_lt in H. rewrite H, orb_true_r. reflexivity.
      * apply Z.leb_le in H. rewrite H, orb_true_r. reflexivity.
Qed.

Lemma next_fit_scan_start_witness :
  last_allocated next_fit_stale_cursor_state = region_base + 16 /\
  observe (registry 10) next_fit_stale_cursor_state = Some [region_base] /\
  next_fit_algorithm 10 100 next_fit_stale_cursor_state
  = next_fit_loop 10 (align8 100) (region_base + 16) next_fit_stale_cursor_state.
Proof.
  split; [vm_compute; reflexivity|]. split; [vm_compute; reflexivity|].
  replace (region_base + 16) with (last_allocated next_fit_stale_cursor_state)
    by (vm_compute; reflexivity).
  apply (proj1 (next_fit_scan_start 10 100 next_fit_stale_cursor_state)).
  vm_compute. split; [discriminate|split; [discriminate|reflexivity]].
Defined.

(** * Headers written by first fit and best fit *)

(** ** Inversion of the primitive steps *)

Lemma load_inv a s v s' :
  load a s = Ok v s' -> s' = s /\ v = load64 (mem s) a.
Proof.
  unfold load. destruct (in_region s a); intros H; [|discriminate].
  injection H as <- <-. auto.
Qed.

Lemma store_inv a v s u s' :
  store a v s = Ok u s' -> s' = set_mem (store64 (mem s) a v) s.
Proof.
  unfold store. destruct (in_region s a); intros H; [|discriminate].
  injection H as _ <-. reflexivity.
Qed.

Lemma set_free_list_mem v s u s' :
  set_free_list v s = Ok u s' -> mem s' = mem s.
Proof. unfold set_free_list, modify. intros H. injection H as _ <-. reflexivity. Qed.

Lemma gets_inv {A} (f : state -> A) s a s' :
  gets f s = Ok a s' -> s' = s /\ a = f s.
Proof. unfold gets. intros H. injection H as <- <-. auto. Qed.

Lemma ret_inv {A} (x : A) s a s' : ret x s = Ok a s' -> a = x /\ s' = s.
Proof. unfold ret. intros H. injection H as <- <-. auto. Qed.

Lemma write_ploc_mem p v s u s' :
  write_ploc p v s = Ok u s' ->
  (p = PHead /\ mem s' = mem s) \/
  (exists a, p = PAddr a /\ mem s' = store64 (mem s) a v).
Proof.
  destruct p as [| |a]; cbn [write_ploc]; intros H.
  - discriminate.
  - left. split; [reflexivity|]. eapply set_free_list_mem; eauto.
  - right. exists a. split; [reflexivity|]. apply store_inv in H. subst. reflexivity.
Qed.

Lemma free_chain_cons_inv s a :
  free_chain s a -> a <> NULL ->
  mapped_base s <= a /\ SIZE_T <= load64 (mem s) a /\
  a + SIZE_T + load64 (mem s) a <= mapped_base s + mapped_len s /\
  (load64 (mem s) (a + SIZE_T) = NULL \/
   a + SIZE_T + load64 (mem s) a <= load64 (mem s) (a + SIZE_T)) /\
  free_chain s (load64 (mem s) (a + SIZE_T)).
Proof. intros H Ha. inversion H; subst; [contradiction|]. tauto. Qed.

Ltac peel_as H a s1 E :=
  apply bind_ok_inv in H; destruct H as (a & s1 & E & H).

Ltac wrap_simpl :=
  repeat match goal with
  | |- context [wrap ?z] => rewrite (wrap_id z) by (unfold W64, SIZE_T in *; lia)
  | H : context [wrap ?z] |- _ => rewrite (wrap_id z) in H by (unfold W64, SIZE_T in *; lia)
  end.

(** ** First fit: the header of the block it returns *)

Lemma first_fit_loop_found fuel size prev cur s p s' :
  cur <> NULL -> size <= load64 (mem s) cur ->
  first_fit_loop fuel size prev cur s = Ok p s' ->
  first_fit_loop 0 size prev cur s = Ok p s'.
Proof.
  intros Hc Hle H. destruct fuel as [|fuel]; [exact H|].
  cbn [first_fit_loop] in *.
  apply Z.eqb_neq in Hc. rewrite Hc in *.
  apply bind_ok_inv in H. destruct H as (v & s1 & E & H).
  unfold bind at 1. rewrite E. pose proof E as E'. apply load_inv in E'.
  destruct E' as [-> ->]. apply Z.leb_le in Hle. rewrite Hle in *. exact H.
Qed.

Lemma first_fit_take_header size s prev cur p s' :
  region_fits s -> free_chain s cur -> cur <> NULL -> 0 <= size < W64 ->
  (prev = NULL \/ (0 <= prev /\ prev + 2 * SIZE_T <= cur)) ->
  size <= load64 (mem s) cur ->
  first_fit_loop 0 size prev cur s = Ok p s' ->
  size <= load64 (mem s) (p - SIZE_T) /\
  (load64 (mem s') (p - SIZE_T) = size \/
   load64 (mem s') (p - SIZE_T) = load64 (mem s) (p - SIZE_T)).
Proof.
  intros [Hb Htop] Hch Hc Hsz Hprev' Hle H.
  destruct (free_chain_cons_inv s cur Hch Hc) as (Hlo & Hh8 & Hend & Hnx & Hch').
  cbn [first_fit_loop] in H. apply Z.eqb_neq in Hc. rewrite Hc in H.
  peel_as H v s0 E. apply load_inv in E. destruct E as [-> ->].
  apply Z.leb_le in Hle. rewrite Hle in H. apply Z.leb_le in Hle.
  apply Z.eqb_neq in Hc.
  peel_as H u1 s1 E1. peel_as H u2 s2 E2.
  apply ret_inv in H. destruct H as [-> ->].
  assert (Hh : 0 <= load64 (mem s) cur) by (unfold SIZE_T in *; lia).
  wrap_simpl. replace (cur + SIZE_T - SIZE_T) with cur by lia.
  split; [exact Hle|].
  assert (Hs2 : load64 (mem s2) cur = load64 (mem s1) cur).
  { destruct (Z.eqb_spec prev NULL).
    - peel_as E2 l s3 E3. apply load_inv in E3. destruct E3 as [-> _].
      apply set_free_list_mem in E2. rewrite E2. reflexivity.
    - peel_as E2 l s3 E3. apply load_inv in E3. destruct E3 as [-> _].
      apply store_inv in E2. subst s2. cbn [mem set_mem].
      destruct Hprev' as [?|[? ?]]; [contradiction|].
      wrap_simpl. apply load_store64_other. unfold SIZE_T in *. lia. }
  rewrite Hs2.
  destruct (size + SIZE_T <? load64 (mem s) cur) eqn:Hsplit.
  + left. apply Z.ltb_lt in Hsplit.
    peel_as E1 x1 t1 F1. apply store_inv in F1. subst t1.
    peel_as E1 x2 t2 F2. apply load_inv in F2. destruct F2 as [-> ->].
    peel_as E1 x3 t3 F3. apply store_inv in F3. subst t3.
    peel_as E1 x4 t4 F4. apply store_inv in F4. subst t4.
    wrap_simpl.
    destruct (Z.eqb_spec prev NULL).
    * apply ret_inv in E1. destruct E1 as [_ ->]. cbn [mem set_mem].
      rewrite load_store64_same. apply wrap_id. exact Hsz.
    * apply store_inv in E1. subst s1. cbn [mem set_mem].
      destruct Hprev' as [?|[? ?]]; [contradiction|].
      wrap_simpl. rewrite load_store64_other by (unfold SIZE_T in *; lia).
      rewrite load_store64_same. apply wrap_id. exact Hsz.
  + right. apply ret_inv in E1. destruct E1 as [_ ->]. reflexivity.
Qed.

Lemma first_fit_loop_header fuel size s prev cur p s' :
  region_fits s -> free_chain s cur -> 0 <= size < W64 ->
  (prev = NULL \/ cur = NULL \/ (0 <= prev /\ prev + 2 * SIZE_T <= cur)) ->
  first_fit_loop fuel size prev cur s = Ok p s' -> p <> NULL ->
  size <= load64 (mem s) (p - SIZE_T) /\
  (load64 (mem s') (p - SIZE_T) = size \/
   load64 (mem s') (p - SIZE_T) = load64 (mem s) (p - SIZE_T)).
Proof.
  intros Hfit. revert prev cur p s'.
  induction fuel as [|fuel IH]; intros prev cur p s' Hch Hsz Hprev H Hp;
    (destruct (Z.eqb_spec cur NULL) as [Hc|Hc];
     [subst cur; cbn [first_fit_loop] in H; apply ret_inv in H;
      destruct H as [-> _]; contradiction|]);
    (assert (Hprev' : prev = NULL \/ (0 <= prev /\ prev + 2 * SIZE_T <= cur))
      by (destruct Hprev as [?|[?|?]]; [left|contradiction|right]; assumption));
    (destruct (Z.le_gt_cases size (load64 (mem s) cur)) as [Hle|Hgt];
     [eapply first_fit_take_header; eauto using first_fit_loop_found|]);
    destruct (free_chain_cons_inv s cur Hch Hc) as (Hlo & Hh8 & Hend & Hnx & Hch');
    cbn [first_fit_loop] in H; apply Z.eqb_neq in Hc; rewrite Hc in H;
    peel_as H v s0 E; apply load_inv in E; destruct E as [-> ->];
    (destruct (Z.leb_spec size (load64 (mem s) cur)); [lia|]).
  - cbv [out_of_fuel] in H; discriminate.
  - peel_as H nx s1 E. destruct Hfit as [Hb Htop]. wrap_simpl.
    apply load_inv in E. destruct E as [-> ->].
    eapply IH; [exact Hch' | exact Hsz | | exact H | exact Hp].
    destruct Hnx as [Hn|Hn]; [right; left; exact Hn|].
    right; right. unfold SIZE_T, NULL in *. lia.
Qed.
Lemma align8_eq n : 0 <= n -> n + SIZE_T < W64 -> align8 n = 8 * ((n + 7) / 8).
Proof.
  intros Hn Hw. unfold align8.
  replace (wrap (n + SIZE_T - 1)) with (n + 7)
    by (unfold wrap, SIZE_T, W64 in *; rewrite Z.mod_small; lia).
  replace (wrap (Z.lnot (SIZE_T - 1))) with (Z.ldiff (Z.ones 64) (Z.ones 3))
    by reflexivity.
  replace (8 * ((n + 7) / 8)) with (Z.shiftl (Z.shiftr (n + 7) 3) 3)
    by (rewrite Z.shiftl_mul_pow2, Z.shiftr_div_pow2 by lia; change (2 ^ 3) with 8; lia).
  apply Z.bits_inj'. intros i Hi.
  rewrite Z.land_spec, Z.ldiff_spec, Z.shiftl_spec by lia.
  rewrite !Z.testbit_ones by lia.
  replace (0 <=? i) with true by (symmetry; apply Z.leb_le; lia).
  destruct (Z.ltb_spec i 3).
  - rewrite (Z.testbit_neg_r _ (i - 3)) by lia.
    cbn [andb negb]. rewrite !andb_false_r. reflexivity.
  - rewrite Z.shiftr_spec by lia. replace (i - 3 + 3) with i by lia.
    cbn [andb negb]. destruct (Z.ltb_spec i 64).
    + rewrite andb_true_r. reflexivity.
    + rewrite andb_false_r. symmetry. apply Z.bits_above_log2; [lia|].
      apply Z.log2_lt_pow2; [lia|]. unfold W64, SIZE_T in *.
      apply Z.lt_le_trans with (2 ^ 64); [lia|apply Z.pow_le_mono_r; lia].
Qed.

(** ** Best fit: the scan and the header of the block it returns *)

Lemma best_fit_scan_pick fuel size b bp sd pp cur s r s' :
  region_fits s -> free_chain s cur -> (cur = NULL \/ ploc_below pp cur) ->
  best_fit_scan fuel size b bp sd pp cur s = Ok r s' ->
  s' = s /\ (fst (fst r) = b /\ snd (fst r) = bp \/
             good_pick s size (fst (fst r)) (snd (fst r))).
Proof.
  intros [Hb Htop]. revert b bp sd pp cur r.
  induction fuel as [|fuel IH]; intros b bp sd pp cur r Hch Hpp H;
    cbn [best_fit_scan] in H;
    (destruct (Z.eqb_spec cur NULL) as [Hc|Hc];
     [apply ret_inv in H; destruct H as [-> ->]; cbn; auto|]).
  - cbv [out_of_fuel] in H. discriminate.
  - destruct Hpp as [|Hpp]; [contradiction|].
    destruct (free_chain_cons_inv s cur Hch Hc) as (Hlo & Hh8 & Hend & Hnx & Hch').
    peel_as H h s1 E. apply load_inv in E. destruct E as [-> ->].
    assert (Hnext : forall b1 bp1 sd1,
      (b1 = b /\ bp1 = bp \/ good_pick s size b1 bp1) ->
      best_fit_scan fuel size b1 bp1 sd1 (PAddr (wrap (cur + SIZE_T)))
        (load64 (mem s) (wrap (cur + SIZE_T))) s = Ok r s' ->
      s' = s /\ (fst (fst r) = b /\ snd (fst r) = bp \/
                 good_pick s size (fst (fst r)) (snd (fst r)))).
    { intros b1 bp1 sd1 Hpick Hrec. wrap_simpl.
      apply IH in Hrec; [| exact Hch' |].
      - destruct Hrec as [-> [[-> ->]|Hg]]; split; auto.
      - destruct Hnx as [Hn|Hn]; [left; exact Hn|right].
        cbn [ploc_below]. unfold SIZE_T, NULL in *. lia. }
    destruct (Z.leb_spec size (load64 (mem s) cur)) as [Hle|Hgt].
    + destruct (load64 (mem s) cur - size <? sd).
      * peel_as H nx s2 E. apply load_inv in E. destruct E as [-> ->].
        eapply Hnext; [|exact H]. right.
        unfold good_pick. repeat split; auto.
      * peel_as H nx s2 E. apply load_inv in E. destruct E as [-> ->].
        eapply Hnext; [|exact H]. left; auto.
    + peel_as H nx s2 E. apply load_inv in E. destruct E as [-> ->].
      eapply Hnext; [|exact H]. left; auto.
Qed.

Lemma align8_range n : 0 <= n -> n + SIZE_T < W64 -> 0 <= align8 n < W64.
Proof.
  intros Hn Hw. rewrite align8_eq by assumption. unfold SIZE_T in *.
  pose proof (Z.mul_div_le (n + 7) 8). pose proof (Z.div_pos (n + 7) 8). lia.
Qed.

Lemma best_fit_algorithm_header fuel n s p s' :
  region_fits s -> free_chain s (free_list s) -> 0 <= n -> n + SIZE_T < W64 ->
  best_fit_algorithm fuel n s = Ok p s' -> p <> NULL ->
  align8 n <= load64 (mem s) (p - SIZE_T) /\
  (load64 (mem s') (p - SIZE_T) = align8 n \/
   load64 (mem s') (p - SIZE_T) = load64 (mem s) (p - SIZE_T)).
Proof.
  intros Hfit Hch Hn Hw H Hp.
  pose proof (align8_range n Hn Hw) as Hsz.
  unfold best_fit_algorithm in H. set (size := align8 n) in *.
  peel_as H fl s1 E. apply gets_inv in E. destruct E as [-> ->].
  peel_as H r s1 E. apply best_fit_scan_pick in E; [| exact Hfit | exact Hch | right; exact I].
  destruct Hfit as [Hb Htop].
  destruct r as [[bb bpp] sdd]. cbn [fst snd] in E.
  destruct E as [-> [[-> _]|Hg]].
  { cbv beta iota in H. apply ret_inv in H. destruct H as [-> _]. contradiction. }
  destruct Hg as (Hbb & Hlo & Hle & Hend & Hbelow).
  cbv beta iota in H. apply Z.eqb_neq in Hbb. rewrite Hbb in H. apply Z.eqb_neq in Hbb.
  peel_as H h s2 E. apply load_inv in E. destruct E as [-> ->].
  wrap_simpl.
  destruct (SIZE_T + SIZE_T <? load64 (mem s) bb - size) eqn:Hsplit.
  - apply Z.ltb_lt in Hsplit.
    peel_as H x1 t1 F1. apply store_inv in F1. subst t1.
    peel_as H x2 t2 F2. apply load_inv in F2. destruct F2 as [-> ->].
    peel_as H x3 t3 F3. apply store_inv in F3. subst t3.
    peel_as H x4 t4 F4. apply store_inv in F4. subst t4.
    peel_as H x5 t5 F5. apply write_ploc_mem in F5.
    apply ret_inv in H. destruct H as [-> ->].
    wrap_simpl. replace (bb + SIZE_T - SIZE_T) with bb by lia.
    split; [exact Hle|]. left.
    destruct F5 as [[_ ->]|(q & -> & ->)]; cbn [mem set_mem].
    + rewrite load_store64_same. apply wrap_id. exact Hsz.
    + cbn [ploc_below] in Hbelow.
      rewrite load_store64_other by lia. cbn [mem set_mem].
      rewrite load_store64_same. apply wrap_id. exact Hsz.
  - peel_as H x2 t2 F2. apply load_inv in F2. destruct F2 as [-> ->].
    peel_as H x5 t5 F5. apply write_ploc_mem in F5.
    apply ret_inv in H. destruct H as [-> ->].
    wrap_simpl. replace (bb + SIZE_T - SIZE_T) with bb by lia.
    split; [exact Hle|]. right.
    destruct F5 as [[_ ->]|(q & -> & ->)]; [reflexivity|].
    cbn [ploc_below] in Hbelow. apply load_store64_other. lia.
Qed.

(** C6, amended: under first fit and best fit, for a well-formed registry
    and a request [n] with [n + 8 < 2^64], a successful [umalloc n] returns a
    block whose recorded size was already at least the aligned size
    [8 * ceil(n / 8)], and whose header afterwards holds either exactly that
    aligned size (the block was split) or its previous whole size (the block
    was handed out as it was). Worst fit and next fit are not covered. *)
Theorem umalloc_header_first_best fuel n s p s' :
  (alloc_algo s = Some FIRST_FIT \/ alloc_algo s = Some BEST_FIT) ->
  region_fits s -> free_chain s (free_list s) -> 0 <= n -> n + SIZE_T < W64 ->
  umalloc fuel n s = Ok p s' -> p <> NULL ->
  8 * ((n + 7) / 8) <= load64 (mem s) (p - SIZE_T) /\
  (load64 (mem s') (p - SIZE_T) = 8 * ((n + 7) / 8) \/
   load64 (mem s') (p - SIZE_T) = load64 (mem s) (p - SIZE_T)).
Proof.
  intros Halgo Hfit Hch Hn Hw H Hp.
  rewrite <- (align8_eq n Hn Hw).
  unfold umalloc in H. peel_as H algo s1 E. apply gets_inv in E.
  destruct E as [-> ->].
  destruct Halgo as [Ha|Ha]; rewrite Ha in H.
  - unfold first_fit_algorithm in H. peel_as H fl s1 E. apply gets_inv in E.
    destruct E as [-> ->].
    eapply first_fit_loop_header; [exact Hfit | exact Hch | | left; reflexivity | exact H | exact Hp].
    apply align8_range; assumption.
  - eapply best_fit_algorithm_header; eassumption.
Qed.

(** A fresh first-fit region and [umalloc 100]. *)
Lemma umalloc_header_first_best_witness :
  (let s := first_fit_fresh_state in
   alloc_algo s = Some FIRST_FIT /\ region_fits s /\ free_chain s (free_list s) /\
   umalloc 10 100 s = Ok (region_base + SIZE_T)
     (match umalloc 10 100 s with Ok _ s' => s' | _ => s end) /\
   8 * ((100 + 7) / 8) <= load64 (mem s) (region_base + SIZE_T - SIZE_T) /\
   (load64 (mem (match umalloc 10 100 s with Ok _ s' => s' | _ => s end))
      (region_base + SIZE_T - SIZE_T) = 8 * ((100 + 7) / 8) \/
    load64 (mem (match umalloc 10 100 s with Ok _ s' => s' | _ => s end))
      (region_base + SIZE_T - SIZE_T) = load64 (mem s) (region_base + SIZE_T - SIZE_T))).
Proof.
  cbv zeta.
  assert (Hch : free_chain first_fit_fresh_state (free_list first_fit_fresh_state)).
  { apply free_chain_cons; [vm_compute; discriminate | vm_compute; discriminate
      | vm_compute; discriminate | vm_compute; discriminate | left; vm_compute; reflexivity |].
    replace (load64 _ _) with NULL by (vm_compute; reflexivity). apply free_chain_nil. }
  assert (Hu : umalloc 10 100 first_fit_fresh_state = Ok (region_base + SIZE_T)
     (match umalloc 10 100 first_fit_fresh_state with Ok _ s' => s' | _ => first_fit_fresh_state end))
    by (vm_compute; reflexivity).
  assert (Hfit : region_fits first_fit_fresh_state) by (split; vm_compute; reflexivity).
  assert (Ha : alloc_algo first_fit_fresh_state = Some FIRST_FIT) by (vm_compute; reflexivity).
  pose proof (umalloc_header_first_best 10 100 _ _ _ (or_introl Ha) Hfit Hch
                ltac:(lia) ltac:(unfold SIZE_T, W64; lia) Hu
                ltac:(vm_compute; discriminate)) as Hh.
  split; [exact Ha|]. split; [exact Hfit|]. split; [exact Hch|]. split; [exact Hu|].
  exact Hh.
Defined.

(** * Further properties of the allocator *)

Lemma page_round_eq sz : 0 <= sz -> sz + PAGE_SIZE - 1 < W64 ->
  Z.land (wrap (sz + PAGE_SIZE - 1)) (wrap (Z.lnot (PAGE_SIZE - 1)))
  = PAGE_SIZE * ((sz + PAGE_SIZE - 1) / PAGE_SIZE).
Proof.
  intros Hn Hw.
  replace (wrap (sz + PAGE_SIZE - 1)) with (sz + PAGE_SIZE - 1)
    by (unfold wrap, PAGE_SIZE, W64 in *; rewrite Z.mod_small; lia).
  replace (wrap (Z.lnot (PAGE_SIZE - 1))) with (Z.ldiff (Z.ones 64) (Z.ones 12))
    by reflexivity.
  replace (PAGE_SIZE * ((sz + PAGE_SIZE - 1) / PAGE_SIZE))
    with (Z.shiftl (Z.shiftr (sz + PAGE_SIZE - 1) 12) 12)
    by (rewrite Z.shiftl_mul_pow2, Z.shiftr_div_pow2 by lia;
        change (2 ^ 12) with PAGE_SIZE; lia).
  apply Z.bits_inj'. intros i Hi.
  rewrite Z.land_spec, Z.ldiff_spec, Z.shiftl_spec by lia.
  rewrite !Z.testbit_ones by lia.
  replace (0 <=? i) with true by (symmetry; apply Z.leb_le; lia).
  destruct (Z.ltb_spec i 12).
  - rewrite (Z.testbit_neg_r _ (i - 12)) by lia.
    cbn [andb negb]. rewrite !andb_false_r. reflexivity.
  - rewrite Z.shiftr_spec by lia. replace (i - 12 + 12) with i by lia.
    cbn [andb negb]. destruct (Z.ltb_spec i 64).
    + rewrite andb_true_r. reflexivity.
    + rewrite andb_false_r. symmetry. apply Z.bits_above_log2;
        [unfold PAGE_SIZE; lia|].
      apply Z.log2_lt_pow2; [unfold PAGE_SIZE; lia|]. unfold W64, PAGE_SIZE in *.
      apply Z.lt_le_trans with (2 ^ 64); [lia|apply Z.pow_le_mono_r; lia].
Qed.

(** X1: on a state not yet initialised, with a positive size whose rounding
    up to a page fits in 64 bits and a mapping granted at a non-NULL base
    that ends below 2^64, [umeminit] returns 0 and sets up one free block:
    it marks the allocator initialised, stores the strategy, sets
    [memory_region] and [free_list] to the base and [region_size] and
    [previous_allocated_size] to the rounded size, leaves [last_allocated]
    alone, and writes header [region_size - 8] and link NULL at the base;
    the registry is then well formed. *)
Theorem umeminit_fresh_region base sz algo s :
  is_initialized s = false -> 0 < sz -> sz + PAGE_SIZE - 1 < W64 ->
  base <> MAP_FAILED -> 0 < base ->
  base + PAGE_SIZE * ((sz + PAGE_SIZE - 1) / PAGE_SIZE) < W64 ->
  exists s', umeminit base sz algo s = Ok 0 s' /\
    is_initialized s' = true /\ alloc_algo s' = Some algo /\
    memory_region s' = base /\ free_list s' = base /\
    region_size s' = PAGE_SIZE * ((sz + PAGE_SIZE - 1) / PAGE_SIZE) /\
    previous_allocated_size s' = region_size s' /\
    last_allocated s' = last_allocated s /\
    load64 (mem s') base = region_size s' - SIZE_T /\
    load64 (mem s') (base + SIZE_T) = NULL /\
    region_fits s' /\ free_chain s' (free_list s').
Proof.
  intros Hinit Hsz Hw Hmf Hb Htop.
  unfold umeminit. rewrite page_round_eq by lia.
  set (R := PAGE_SIZE * ((sz + PAGE_SIZE - 1) / PAGE_SIZE)) in *.
  cbv [bind gets ret modify set_free_list store in_region].
  rewrite Hinit. cbn [mem mapped_base mapped_len memory_region free_list
    previous_allocated_size alloc_algo region_size is_initialized last_allocated].
  replace (sz <=? 0) with false by (symmetry; apply Z.leb_gt; lia).
  replace (base =? MAP_FAILED) with false by (symmetry; apply Z.eqb_neq; exact Hmf).
  assert (HR : PAGE_SIZE <= R).
  { unfold R, PAGE_SIZE in *.
    assert (1 <= (sz + 4096 - 1) / 4096) by (apply Z.div_le_lower_bound; lia). lia. }
  cbv beta. cbn [mem mapped_base mapped_len memory_region free_list
    previous_allocated_size alloc_algo region_size is_initialized last_allocated set_mem].
  rewrite (wrap_id (base + SIZE_T)) by (unfold SIZE_T, PAGE_SIZE in *; lia).
  replace ((base <=? base) && (base + SIZE_T <=? base + R)) with true
    by (symmetry; apply andb_true_intro; split; apply Z.leb_le; unfold PAGE_SIZE, SIZE_T in *; lia).
  cbn [mem mapped_base mapped_len memory_region free_list
    previous_allocated_size alloc_algo region_size is_initialized last_allocated set_mem].
  replace ((base <=? base + SIZE_T) && (base + SIZE_T + SIZE_T <=? base + R)) with true
    by (symmetry; apply andb_true_intro; split; apply Z.leb_le; unfold PAGE_SIZE, SIZE_T in *; lia).
  eexists. split; [reflexivity|].
  cbn [mem mapped_base mapped_len memory_region free_list
    previous_allocated_size alloc_algo region_size is_initialized last_allocated set_mem].
  assert (Hh : load64 (store64 (store64 (fun _ => 0) base (wrap (R - SIZE_T)))
                 (base + SIZE_T) NULL) base = R - SIZE_T).
  { rewrite load_store64_other by lia. rewrite load_store64_same.
    rewrite (wrap_id (R - SIZE_T)) by (unfold SIZE_T, PAGE_SIZE in *; lia).
    apply wrap_id. unfold SIZE_T, PAGE_SIZE in *; lia. }
  assert (Hl : load64 (store64 (store64 (fun _ => 0) base (wrap (R - SIZE_T)))
                 (base + SIZE_T) NULL) (base + SIZE_T) = NULL).
  { rewrite load_store64_same. reflexivity. }
  do 9 (split; [reflexivity || assumption|]).
  split; [unfold region_fits; cbn [mapped_base mapped_len]; lia|].
  cbn [free_list]. apply free_chain_cons; cbn [mem mapped_base mapped_len];
    rewrite ?Hh, ?Hl; unfold NULL, SIZE_T, PAGE_SIZE in *; try lia.
  apply free_chain_nil.
Qed.


Lemma load_ok s a : mapped_base s <= a ->
  a + SIZE_T <= mapped_base s + mapped_len s -> load a s = Ok (load64 (mem s) a) s.
Proof.
  intros H1 H2. unfold load, in_region.
  rewrite (proj2 (Z.leb_le _ _) H1), (proj2 (Z.leb_le _ _) H2). reflexivity.
Qed.

Lemma store_ok s a v : mapped_base s <= a ->
  a + SIZE_T <= mapped_base s + mapped_len s ->
  store a v s = Ok tt (set_mem (store64 (mem s) a v) s).
Proof.
  intros H1 H2. unfold store, in_region.
  rewrite (proj2 (Z.leb_le _ _) H1), (proj2 (Z.leb_le _ _) H2). reflexivity.
Qed.





(** ** Frames: what a store below the registry leaves alone *)

Lemma agree_from_store m a b v :
  b + SIZE_T <= a -> agree_from (store64 m b v) m a.
Proof. intros H x Hx. apply load_store64_other. lia. Qed.

Lemma free_chain_next_gt s a :
  free_chain s a -> a <> NULL ->
  load64 (mem s) (a + SIZE_T) = NULL \/
  a + 2 * SIZE_T <= load64 (mem s) (a + SIZE_T).
Proof.
  intros H Ha. destruct (free_chain_cons_inv s a H Ha) as (_ & Hh8 & _ & Hnx & _).
  destruct Hnx as [Hn|Hn]; [left; exact Hn | right; unfold SIZE_T in *; lia].
Qed.

Lemma free_chain_frame s1 s a :
  mapped_base s1 = mapped_base s -> mapped_len s1 = mapped_len s ->
  free_chain s a -> agree_from (mem s1) (mem s) a -> free_chain s1 a.
Proof.
  intros Eb El H. induction H as [|a Ha Hlo Hh Hend Hnx Hch IH]; intros Hag.
  - apply free_chain_nil.
  - rewrite <- (Hag a (Z.le_refl a)) in Hh, Hend, Hnx.
    assert (E : load64 (mem s1) (a + SIZE_T) = load64 (mem s) (a + SIZE_T))
      by (apply Hag; unfold SIZE_T; lia).
    apply free_chain_cons; rewrite ?Eb, ?El, ?E; try assumption.
    destruct Hnx as [Hn|Hn]; [rewrite Hn; apply free_chain_nil|].
    apply IH. intros x Hx. apply Hag. unfold SIZE_T in *. lia.
Qed.

Lemma chain_frame s1 s a l :
  free_chain s a -> chain s a l -> agree_from (mem s1) (mem s) a -> chain s1 a l.
Proof.
  intros Hf H. induction H as [|a l Ha Hc IH]; intros Hag.
  - apply chain_nil.
  - destruct (free_chain_cons_inv s a Hf Ha) as (Hlo & Hh8 & Hend & Hnx & Hf').
    assert (E : load64 (mem s1) (a + SIZE_T) = load64 (mem s) (a + SIZE_T))
      by (apply Hag; unfold SIZE_T; lia).
    apply chain_cons; [exact Ha|]. rewrite E.
    destruct Hnx as [Hn|Hn].
    + rewrite Hn in Hc |- *. inversion Hc; subst; [apply chain_nil|congruence].
    + apply IH; [exact Hf'|]. intros x Hx. apply Hag. unfold SIZE_T in *. lia.
Qed.

Lemma chain_ge s a l y :
  free_chain s a -> chain s a l -> In y l -> a <= y.
Proof.
  intros Hf H. revert Hf. induction H as [|a l Ha Hc IH]; intros Hf Hy.
  - destruct Hy.
  - destruct Hy as [<-|Hy]; [lia|].
    destruct (free_chain_cons_inv s a Hf Ha) as (Hlo & Hh8 & Hend & Hnx & Hf').
    specialize (IH Hf' Hy). destruct Hnx as [Hn|Hn].
    + rewrite Hn in Hc. inversion Hc; subst. destruct Hy. congruence.
    + unfold SIZE_T in *. lia.
Qed.



Lemma chain_null s l : chain s NULL l -> l = [].
Proof. intros H. inversion H; subst; [reflexivity|congruence]. Qed.



Lemma free_chain_store_below s a b v :
  free_chain s a -> (a = NULL \/ b + SIZE_T <= a) ->
  free_chain (set_mem (store64 (mem s) b v) s) a.
Proof.
  intros H [->|Hb]; [apply free_chain_nil|].
  apply (free_chain_frame _ s); [reflexivity|reflexivity|exact H|].
  apply agree_from_store. exact Hb.
Qed.

Lemma chain_store_below s a l b v :
  free_chain s a -> chain s a l -> (a = NULL \/ b + SIZE_T <= a) ->
  chain (set_mem (store64 (mem s) b v) s) a l.
Proof.
  intros Hf H [->|Hb]; [apply chain_null in H; subst; apply chain_nil|].
  apply (chain_frame _ s _ _ Hf H). apply agree_from_store. exact Hb.
Qed.





(** ** The block each strategy picks *)








Lemma umeminit_cases base sz algo s r s' :
  umeminit base sz algo s = Ok r s' ->
  (r = UMEM_ERROR /\ (is_initialized s = true \/ sz <= 0 \/ base = MAP_FAILED) /\
   is_initialized s' = is_initialized s /\ alloc_algo s' = alloc_algo s /\
   free_list s' = free_list s /\ mem s' = mem s /\ region_size s' = region_size s /\
   last_allocated s' = last_allocated s) \/
  (r = 0 /\ is_initialized s = false /\ 0 < sz /\ base <> MAP_FAILED /\
   is_initialized s' = true /\ alloc_algo s' = Some algo).
Proof.
  unfold umeminit. cbv [bind gets ret modify set_free_list store].
  destruct (is_initialized s) eqn:Hi.
  { intros H. injection H as <- <-. left. auto 10. }
  destruct (Z.leb_spec sz 0) as [Hle|Hgt].
  { intros H. injection H as <- <-. left. auto 10. }
  cbn [mem mapped_base mapped_len memory_region free_list
    previous_allocated_size alloc_algo region_size is_initialized last_allocated].
  destruct (Z.eqb_spec base MAP_FAILED) as [Hm|Hm].
  { intros H. injection H as <- <-. left. cbn. rewrite Hi. auto 10. }
  cbv beta. cbn [in_region mem mapped_base mapped_len memory_region free_list
    previous_allocated_size alloc_algo region_size is_initialized last_allocated set_mem].
  match goal with |- context [if ?c then _ else _] => destruct c end;
    [|discriminate].
  cbn [in_region mem mapped_base mapped_len memory_region free_list
    previous_allocated_size alloc_algo region_size is_initialized last_allocated set_mem].
  match goal with |- context [if ?c then _ else _] => destruct c end;
    [|discriminate].
  intros H. injection H as <- <-. right. cbn. auto 10.
Qed.

(** X2: [umeminit] returns [UMEM_ERROR] exactly when the allocator is
    already initialised, the size is not positive or the mapping fails; it
    then leaves [is_initialized], the strategy, [free_list], the memory,
    [region_size] and [last_allocated] as they were.  Otherwise it
    returns 0. *)
Theorem umeminit_error_leaves_state base sz algo s r s' :
  umeminit base sz algo s = Ok r s' ->
  (r = UMEM_ERROR <-> is_initialized s = true \/ sz <= 0 \/ base = MAP_FAILED) /\
  (r = UMEM_ERROR ->
     is_initialized s' = is_initialized s /\ alloc_algo s' = alloc_algo s /\
     free_list s' = free_list s /\ mem s' = mem s /\ region_size s' = region_size s /\
     last_allocated s' = last_allocated s) /\
  (r <> UMEM_ERROR -> r = 0).
Proof.
  intros H. apply umeminit_cases in H.
  destruct H as [(-> & Hwhy & Hkeep)|(-> & Hi & Hsz & Hm & _)].
  - split; [tauto|]. split; [tauto|]. intros []; reflexivity.
  - split; [|split; [intros E; discriminate E|tauto]].
    split; [intros E; discriminate E|]. rewrite Hi. intros [E|[E|E]]; [discriminate E|lia|contradiction].
Qed.



Lemma umeminit_error_leaves_state_witness :
  umeminit region_base 0 FIRST_FIT state0 = Ok UMEM_ERROR state0 /\
  (UMEM_ERROR = UMEM_ERROR <-> is_initialized state0 = true \/ 0 <= 0 \/ region_base = MAP_FAILED).
Proof.
  assert (E : umeminit region_base 0 FIRST_FIT state0 = Ok UMEM_ERROR state0)
    by (vm_compute; reflexivity).
  split; [exact E|]. exact (proj1 (umeminit_error_leaves_state _ _ _ _ _ _ E)).
Defined.

Lemma keeps_ret {A} (x : A) : keeps (ret x).
Proof. intros s a s' H. injection H as _ <-. repeat split. Qed.
Lemma keeps_bind {A B} (m : M A) (k : A -> M B) :
  keeps m -> (forall a, keeps (k a)) -> keeps (bind m k).
Proof.
  intros Hm Hk s b s' H. apply bind_ok_inv in H. destruct H as (a & s1 & E & H).
  apply Hm in E. apply Hk in H. unfold same_config in *.
  destruct E as (? & ? & ? & ? & ? & ? & ?), H as (? & ? & ? & ? & ? & ? & ?).
  repeat split; congruence.
Qed.
Lemma keeps_gets {A} (f : state -> A) : keeps (gets f).
Proof. intros s a s' H. injection H as _ <-. repeat split. Qed.
Lemma keeps_load a : keeps (load a).
Proof. intros s v s' H. apply load_inv in H. destruct H as [-> _]. repeat split. Qed.
Lemma keeps_store a v : keeps (store a v).
Proof. intros s u s' H. apply store_inv in H. subst s'. repeat split. Qed.
Lemma keeps_set_free_list v : keeps (set_free_list v).
Proof. intros s u s' H. injection H as _ <-. repeat split. Qed.
Lemma keeps_set_last_allocated v : keeps (set_last_allocated v).
Proof. intros s u s' H. injection H as _ <-. repeat split. Qed.
Lemma keeps_write_ploc p v : keeps (write_ploc p v).
Proof.
  destruct p; [intros s u s' H; discriminate H|apply keeps_set_free_list|apply keeps_store].
Qed.
Lemma keeps_out_of_fuel {A} : keeps (@out_of_fuel A).
Proof. intros s a s' H. discriminate H. Qed.

Ltac keeps_step :=
  match goal with
  | |- keeps (bind _ _) => apply keeps_bind; [|intros ?; cbv beta]
  | |- keeps (ret _) => apply keeps_ret
  | |- keeps (gets _) => apply keeps_gets
  | |- keeps (load _) => apply keeps_load
  | |- keeps (store _ _) => apply keeps_store
  | |- keeps (set_free_list _) => apply keeps_set_free_list
  | |- keeps (set_last_allocated _) => apply keeps_set_last_allocated
  | |- keeps (write_ploc _ _) => apply keeps_write_ploc
  | |- keeps out_of_fuel => apply keeps_out_of_fuel
  | |- keeps (if ?b then _ else _) => destruct b
  | |- keeps (match ?x with (_, _) => _ end) => destruct x
  end.

Lemma keeps_coalescing_loop fuel c : keeps (coalescing_loop fuel c).
Proof.
  revert c. induction fuel as [|fuel IH]; intros c; cbn [coalescing_loop];
    repeat (keeps_step || apply IH).
Qed.

Lemma keeps_ufree_find fuel b p c : keeps (ufree_find fuel b p c).
Proof.
  revert p c. induction fuel as [|fuel IH]; intros p c; cbn [ufree_find];
    repeat (keeps_step || apply IH).
Qed.

Lemma keeps_ufree fuel p : keeps (ufree fuel p).
Proof.
  unfold ufree, coalescing_memory.
  repeat (keeps_step || apply keeps_ufree_find || apply keeps_coalescing_loop).
Qed.

Lemma keeps_first_fit_loop fuel size p c : keeps (first_fit_loop fuel size p c).
Proof.
  revert p c. induction fuel as [|fuel IH]; intros p c; cbn [first_fit_loop];
    repeat (keeps_step || apply IH).
Qed.

Lemma keeps_best_fit_scan fuel size b bp sd pp c :
  keeps (best_fit_scan fuel size b bp sd pp c).
Proof.
  revert b bp sd pp c. induction fuel as [|fuel IH]; intros b bp sd pp c;
    cbn [best_fit_scan]; repeat (keeps_step || apply IH).
Qed.

Lemma keeps_worst_fit_scan fuel size b bp ld pp c :
  keeps (worst_fit_scan fuel size b bp ld pp c).
Proof.
  revert b bp ld pp c. induction fuel as [|fuel IH]; intros b bp ld pp c;
    cbn [worst_fit_scan]; repeat (keeps_step || apply IH).
Qed.

Lemma keeps_next_fit_loop fuel size start : keeps (next_fit_loop fuel size start).
Proof.
  induction fuel as [|fuel IH]; cbn [next_fit_loop];
    repeat (keeps_step || apply IH).
Qed.

Lemma keeps_umalloc fuel n : keeps (umalloc fuel n).
Proof.
  unfold umalloc. apply keeps_bind; [apply keeps_gets|].
  intros [[| | |]|]; cbv beta iota.
  - unfold first_fit_algorithm.
    repeat (keeps_step || apply keeps_first_fit_loop).
  - unfold best_fit_algorithm.
    repeat (keeps_step || apply keeps_best_fit_scan).
  - unfold worst_fit_algorithm.
    repeat (keeps_step || apply keeps_worst_fit_scan).
  - unfold next_fit_algorithm.
    repeat (keeps_step || apply keeps_next_fit_loop).
  - apply keeps_ret.
Qed.

(** X10: whatever the strategy and the arguments, a [umalloc] or [ufree]
    call that completes leaves the mapping, [memory_region],
    [previous_allocated_size], the strategy, [region_size] and
    [is_initialized] as they were. *)
Theorem umalloc_ufree_keep_config fuel n p :
  keeps (umalloc fuel n) /\ keeps (ufree fuel p).
Proof. split; [apply keeps_umalloc|apply keeps_ufree]. Qed.

Lemma chain_entries s c l : free_chain s c -> chain s c l -> Forall (entry_ok s) l.
Proof.
  intros Hf Hc. induction Hc as [|a l Ha Hc IH]; [constructor|].
  destruct (free_chain_cons_inv s a Hf Ha) as (Hlo & Hh8 & Hend & Hnx & Hf').
  constructor; [repeat split; auto|auto].
Qed.

Lemma free_chain_of_entries s c l : chain s c l -> Forall (entry_ok s) l -> free_chain s c.
Proof.
  intros Hc. induction Hc as [|a l Ha Hc IH]; intros Hall; [apply free_chain_nil|].
  inversion Hall as [|? ? (_ & Hlo & Hh8 & Hend & Hnx) Hall']; subst.
  apply free_chain_cons; auto.
Qed.

Lemma chain_cons_inv2 s c a l : chain s c (a :: l) ->
  c = a /\ a <> NULL /\ chain s (load64 (mem s) (a + SIZE_T)) l.
Proof. intros H. inversion H; subst. auto. Qed.

Lemma chain_app_tail s c lo hi : chain s c (lo ++ hi) -> chain s (hd NULL hi) hi.
Proof.
  revert c. induction lo as [|a lo IH]; intros c H.
  - cbn in H. inversion H; subst; [constructor|]. cbn. constructor; auto.
  - apply chain_cons_inv2 in H. destruct H as (_ & _ & H). eapply IH. exact H.
Qed.

Lemma chain_agree s s' c l :
  chain s c l ->
  (forall x, In x l -> load64 (mem s') (x + SIZE_T) = load64 (mem s) (x + SIZE_T)) ->
  chain s' c l.
Proof.
  intros H. induction H as [|a l Ha Hc IH]; intros Hag; [constructor|].
  constructor; [exact Ha|]. rewrite (Hag a (or_introl eq_refl)).
  apply IH. intros x Hx. apply Hag. right. exact Hx.
Qed.

Lemma chain_before s c l1 y l2 :
  free_chain s c -> chain s c (l1 ++ y :: l2) ->
  forall x, In x l1 -> x + SIZE_T + load64 (mem s) x <= y.
Proof.
  revert c. induction l1 as [|a l1 IH]; intros c Hf Hc x Hx; [destruct Hx|].
  apply chain_cons_inv2 in Hc. destruct Hc as (-> & Ha & Hc).
  destruct (free_chain_cons_inv s a Hf Ha) as (Hlo & Hh8 & Hend & Hnx & Hf').
  destruct Hx as [<-|Hx]; [|eapply IH; eassumption].
  assert (Hy : In y (l1 ++ y :: l2)) by (apply in_or_app; right; left; reflexivity).
  pose proof (chain_ge _ _ _ _ Hf' Hc Hy) as Hge.
  destruct Hnx as [Hn|Hn]; [|lia].
  rewrite Hn in Hc. apply chain_null in Hc. destruct l1; discriminate Hc.
Qed.

Lemma chain_disjoint s c l x y :
  free_chain s c -> chain s c l -> In x l -> In y l -> x <> y ->
  x + SIZE_T + load64 (mem s) x <= y \/ y + SIZE_T + load64 (mem s) y <= x.
Proof.
  intros Hf Hc Hx Hy Hxy.
  destruct (in_split _ _ Hy) as (l1 & l2 & ->).
  apply in_app_or in Hx. destruct Hx as [Hx|[<-|Hx]].
  - left. eapply chain_before; eassumption.
  - congruence.
  - right. destruct (in_split _ _ Hx) as (l3 & l4 & ->).
    eapply (chain_before s c (l1 ++ y :: l3) x l4); [exact Hf| |].
    + rewrite <- app_assoc. exact Hc.
    + apply in_or_app. right. left. reflexivity.
Qed.








Lemma keeps_head_ret {A} (x : A) : keeps_head (ret x).
Proof. intros s a s' H. injection H as _ <-. reflexivity. Qed.
Lemma keeps_head_bind {A B} (m : M A) (k : A -> M B) :
  keeps_head m -> (forall a, keeps_head (k a)) -> keeps_head (bind m k).
Proof.
  intros Hm Hk s b s' H. apply bind_ok_inv in H. destruct H as (a & s1 & E & H).
  apply Hm in E. apply Hk in H. congruence.
Qed.
Lemma keeps_head_gets {A} (f : state -> A) : keeps_head (gets f).
Proof. intros s a s' H. injection H as _ <-. reflexivity. Qed.
Lemma keeps_head_load a : keeps_head (load a).
Proof. intros s v s' H. apply load_inv in H. destruct H as [-> _]. reflexivity. Qed.
Lemma keeps_head_store a v : keeps_head (store a v).
Proof. intros s u s' H. apply store_inv in H. subst s'. reflexivity. Qed.
Lemma keeps_head_set_last_allocated v : keeps_head (set_last_allocated v).
Proof. intros s u s' H. injection H as _ <-. reflexivity. Qed.
Lemma keeps_head_out_of_fuel {A} : keeps_head (@out_of_fuel A).
Proof. intros s a s' H. discriminate H. Qed.

Ltac keeps_head_step :=
  match goal with
  | |- keeps_head (bind _ _) => apply keeps_head_bind; [|intros ?; cbv beta]
  | |- keeps_head (ret _) => apply keeps_head_ret
  | |- keeps_head (gets _) => apply keeps_head_gets
  | |- keeps_head (load _) => apply keeps_head_load
  | |- keeps_head (store _ _) => apply keeps_head_store
  | |- keeps_head (set_last_allocated _) => apply keeps_head_set_last_allocated
  | |- keeps_head out_of_fuel => apply keeps_head_out_of_fuel
  | |- keeps_head (if ?b then _ else _) => destruct b
  end.

Lemma keeps_head_next_fit_loop fuel size start : keeps_head (next_fit_loop fuel size start).
Proof.
  induction fuel as [|fuel IH]; cbn [next_fit_loop];
    repeat (keeps_head_step || apply IH).
Qed.

(** X12: under next fit, a [umalloc] call that completes never changes
    [free_list]. *)
Theorem next_fit_keeps_registry_head fuel n s p s' :
  alloc_algo s = Some NEXT_FIT -> umalloc fuel n s = Ok p s' ->
  free_list s' = free_list s.
Proof.
  intros Ha H. unfold umalloc in H. peel_as H algo s1 E. apply gets_inv in E.
  destruct E as [-> ->]. rewrite Ha in H.
  assert (K : keeps_head (next_fit_algorithm fuel n)).
  { unfold next_fit_algorithm.
    repeat (keeps_head_step || apply keeps_head_next_fit_loop). }
  exact (K _ _ _ H).
Qed.



(** X14: on a well-formed registry with entries [l] containing [blk], when
    [8 <= req] and the block's size exceeds [req + 16],
    [allocate_memory_block blk req] returns [blk + 8], writes [req] into
    [blk]'s header and a block of size [size - req - 8] at [blk + 8 + req]
    linked to [blk]'s old successor, but keeps [free_list] and the list of
    entries: [blk] stays in the registry and the new block is not in it. *)
Theorem allocate_memory_block_split_keeps fuel s l blk req :
  region_fits s -> free_chain s (free_list s) -> chain s (free_list s) l -> In blk l ->
  SIZE_T <= req -> req + SIZE_T + SIZE_T < load64 (mem s) blk ->
  exists s', allocate_memory_block fuel blk req s = Ok (blk + SIZE_T) s' /\
    free_list s' = free_list s /\
    chain s' (free_list s') l /\ free_chain s' (free_list s') /\
    load64 (mem s') blk = req /\
    load64 (mem s') (blk + SIZE_T + req) = load64 (mem s) blk - req - SIZE_T /\
    load64 (mem s') (blk + SIZE_T + req + SIZE_T) = load64 (mem s) (blk + SIZE_T) /\
    ~ In (blk + SIZE_T + req) l.
Proof.
  intros Hfit Hf Hc Hblk Hreq Hbig.
  pose proof Hfit as [Hb Htop].
  pose proof (chain_entries _ _ _ Hf Hc) as Hent. rewrite Forall_forall in Hent.
  destruct (Hent blk Hblk) as (Hb0 & Hblo & Hbh8 & Hbend & Hbnx).
  set (h := load64 (mem s) blk) in *.
  set (next := load64 (mem s) (blk + SIZE_T)) in *.
  set (nb := blk + SIZE_T + req).
  assert (Hnext_w : 0 <= next < W64).
  { destruct Hbnx as [Hn|Hn]; [fold next in Hn; rewrite Hn; unfold NULL, W64; lia|].
    destruct (in_split _ _ Hblk) as (pre & post & El). rewrite El in Hc.
    pose proof (chain_app_tail _ _ _ _ Hc) as H. cbn [hd] in H.
    apply chain_cons_inv2 in H. destruct H as (_ & _ & Hpost). fold next in Hpost.
    destruct post as [|n0 post];
      [assert (E0 : next = NULL) by (inversion Hpost; reflexivity); unfold NULL, SIZE_T in *; lia|].
    apply chain_cons_inv2 in Hpost. destruct Hpost as (E0 & _).
    assert (Hn0 : In n0 l) by (rewrite El; apply in_or_app; right; right; left; reflexivity).
    destruct (Hent n0 Hn0) as (_ & _ & H8 & Hend0 & _). unfold SIZE_T in *. lia. }
  unfold allocate_memory_block.
  unfold bind at 1. rewrite load_ok by (auto; unfold SIZE_T in *; lia). cbv beta. fold h.
  rewrite (wrap_id (req + SIZE_T + SIZE_T)) by (unfold SIZE_T in *; lia).
  rewrite (proj2 (Z.ltb_lt _ _) Hbig).
  rewrite (wrap_id (h - req - SIZE_T)) by (unfold SIZE_T in *; lia).
  rewrite (wrap_id (blk + SIZE_T + req)) by (unfold SIZE_T in *; lia). fold nb.
  unfold bind at 1. rewrite store_ok by (unfold nb, SIZE_T in *; lia). cbv beta.
  set (s1 := set_mem (store64 (mem s) nb (h - req - SIZE_T)) s).
  rewrite (wrap_id (blk + SIZE_T)) by (unfold SIZE_T in *; lia).
  unfold bind at 1. rewrite load_ok by (cbn [s1 set_mem mapped_base mapped_len]; unfold SIZE_T in *; lia).
  cbv beta.
  assert (E1 : load64 (mem s1) (blk + SIZE_T) = next).
  { cbn [s1 set_mem mem]. rewrite load_store64_other by (unfold nb, SIZE_T in *; lia). reflexivity. }
  rewrite E1.
  rewrite (wrap_id (nb + SIZE_T)) by (unfold nb, SIZE_T in *; lia).
  unfold bind at 1. rewrite store_ok by (cbn [s1 set_mem mapped_base mapped_len]; unfold nb, SIZE_T in *; lia).
  cbv beta.
  set (s2 := set_mem (store64 (mem s1) (nb + SIZE_T) next) s1).
  unfold bind at 1. rewrite store_ok by (cbn [s2 s1 set_mem mapped_base mapped_len]; unfold SIZE_T in *; lia).
  cbv beta. unfold ret.
  eexists. split; [reflexivity|].
  set (s3 := set_mem (store64 (mem s2) blk req) s2).
  (* the three stores lie inside [blk, blk + SIZE_T + h), apart from blk's link *)
  assert (Hout : forall a, a + SIZE_T <= blk \/ blk + SIZE_T + h <= a ->
            load64 (mem s3) a = load64 (mem s) a).
  { intros a Ha. cbn [s3 s2 s1 set_mem mem].
    rewrite !load_store64_other by (unfold nb, SIZE_T in *; lia). reflexivity. }
  assert (Hlink : load64 (mem s3) (blk + SIZE_T) = next).
  { cbn [s3 s2 s1 set_mem mem].
    rewrite !load_store64_other by (unfold nb, SIZE_T in *; lia). reflexivity. }
  assert (Hhd : load64 (mem s3) blk = req).
  { cbn [s3 set_mem mem]. rewrite load_store64_same. apply wrap_id. unfold SIZE_T, W64 in *; lia. }
  assert (Hres : load64 (mem s3) nb = h - req - SIZE_T).
  { cbn [s3 s2 s1 set_mem mem].
    rewrite !load_store64_other by (unfold nb, SIZE_T in *; lia).
    rewrite load_store64_same. apply wrap_id. unfold SIZE_T, W64 in *; lia. }
  assert (Hreslink : load64 (mem s3) (nb + SIZE_T) = next).
  { cbn [s3 s2 s1 set_mem mem].
    rewrite !load_store64_other by (unfold nb, SIZE_T in *; lia).
    rewrite load_store64_same. apply wrap_id. exact Hnext_w. }
  assert (Hother : forall x, In x l -> x <> blk ->
            x + SIZE_T + load64 (mem s) x <= blk \/ blk + SIZE_T + h <= x).
  { intros x Hx Nx. exact (chain_disjoint _ _ _ _ _ Hf Hc Hx Hblk Nx). }
  assert (Hlinks : forall x, In x l -> load64 (mem s3) (x + SIZE_T) = load64 (mem s) (x + SIZE_T)).
  { intros x Hx. destruct (Z.eq_dec x blk) as [->|Nx]; [exact Hlink|].
    destruct (Hent x Hx) as (_ & _ & H8 & _).
    apply Hout. destruct (Hother x Hx Nx); unfold SIZE_T in *; lia. }
  assert (Hch : chain s3 (free_list s3) l) by exact (chain_agree s s3 _ _ Hc Hlinks).
  split; [reflexivity|]. split; [exact Hch|]. split; [|split; [exact Hhd|split; [exact Hres|split]]].
  - apply (free_chain_of_entries _ _ _ Hch). rewrite Forall_forall. intros x Hx.
    destruct (Hent x Hx) as (Hx0 & Hxlo & Hx8 & Hxend & Hxnx).
    unfold entry_ok. cbn [s3 s2 s1 mapped_base mapped_len set_mem].
    fold s1 s2 s3. rewrite (Hlinks x Hx).
    destruct (Z.eq_dec x blk) as [->|Nx].
    + rewrite Hhd. fold next. repeat split; auto; unfold SIZE_T in *; lia.
    + rewrite (Hout x) by (destruct (Hother x Hx Nx); unfold SIZE_T in *; lia).
      repeat split; auto.
  - exact Hreslink.
  - intros Hin. destruct (Z.eq_dec nb blk) as [E|Nx]; [unfold nb, SIZE_T in *; lia|].
    destruct (Hent nb Hin) as (_ & _ & H8 & _). destruct (Hother nb Hin Nx); unfold nb, SIZE_T in *; lia.
Qed.

Ltac free_chain_concrete :=
  lazymatch goal with
  | |- free_chain ?s ?a =>
      let v := eval vm_compute in a in
      replace a with v by (vm_compute; reflexivity);
      first
        [ apply free_chain_nil
        | apply free_chain_cons;
          [ vm_compute; discriminate | vm_compute; discriminate
          | vm_compute; discriminate | vm_compute; discriminate
          | first [left; vm_compute; reflexivity | right; vm_compute; discriminate]
          | free_chain_concrete ] ]
  end.

Ltac chain_concrete :=
  lazymatch goal with
  | |- chain ?s ?a ?l =>
      let v := eval vm_compute in a in
      let w := eval vm_compute in l in
      replace a with v by (vm_compute; reflexivity);
      replace l with w by (vm_compute; reflexivity);
      first
        [ apply chain_nil
        | apply chain_cons; [vm_compute; discriminate | chain_concrete] ]
  end.

Ltac fits_concrete := split; vm_compute; reflexivity.

Lemma umeminit_fresh_region_witness :
  exists s', umeminit region_base 4096 FIRST_FIT state0 = Ok 0 s' /\
    is_initialized s' = true /\ alloc_algo s' = Some FIRST_FIT /\
    memory_region s' = region_base /\ free_list s' = region_base /\
    region_size s' = PAGE_SIZE * ((4096 + PAGE_SIZE - 1) / PAGE_SIZE) /\
    previous_allocated_size s' = region_size s' /\
    last_allocated s' = last_allocated state0 /\
    load64 (mem s') region_base = region_size s' - SIZE_T /\
    load64 (mem s') (region_base + SIZE_T) = NULL /\
    region_fits s' /\ free_chain s' (free_list s').
Proof.
  apply umeminit_fresh_region;
    first [vm_compute; reflexivity | vm_compute; discriminate | unfold PAGE_SIZE, W64; lia].
Defined.








Lemma next_fit_keeps_registry_head_witness :
  free_list (after_umalloc 10 100 (fresh_state NEXT_FIT)) = free_list (fresh_state NEXT_FIT).
Proof.
  apply (next_fit_keeps_registry_head 10 100 (fresh_state NEXT_FIT) (region_base + 120)
           (after_umalloc 10 100 (fresh_state NEXT_FIT))); vm_compute; reflexivity.
Defined.


Lemma allocate_memory_block_split_keeps_witness :
  let s := fresh_state FIRST_FIT in
  exists s', allocate_memory_block 10 region_base 100 s = Ok (region_base + SIZE_T) s' /\
    free_list s' = free_list s /\
    chain s' (free_list s') [region_base] /\ free_chain s' (free_list s') /\
    load64 (mem s') region_base = 100 /\
    load64 (mem s') (region_base + SIZE_T + 100) = load64 (mem s) region_base - 100 - SIZE_T /\
    load64 (mem s') (region_base + SIZE_T + 100 + SIZE_T) = load64 (mem s) (region_base + SIZE_T) /\
    ~ In (region_base + SIZE_T + 100) [region_base].
Proof.
  cbv zeta.
  apply allocate_memory_block_split_keeps;
    [fits_concrete|free_chain_concrete|chain_concrete|left; reflexivity
    |vm_compute; discriminate|vm_compute; reflexivity].
Defined.
